(** * Conditional DePhase (Differential Manchester) transcoder

    A shallow embedding of [src/cdp.cpp] (class [CDP]) and the properties
    of its encode/decode pair.

    Conventions of the embedding:
    - [uint8_t], [uint16_t] and [size_t] values are [Z]; every assignment
      to a fixed-width variable reduces modulo the width ([u8], [u16],
      [size_t w]).  The width [w] of [size_t] is fixed by the target and
      is a parameter of the buffer-level functions.
    - a byte buffer is a [list Z]; [data[i]] outside the list is an
      out-of-bounds access, which the embedding reports as [OutOfBounds]
      instead of giving it a value.
    - the [uint8_t*] signal level is threaded explicitly: a function that
      mutates [*current_signal_level] returns the new level next to its
      result. *)

From Stdlib Require Import ZArith Lia Ascii String.
From stdpp Require Import base list.
Local Open Scope Z_scope.

(** ** Fixed-width integers *)

Definition u8 (x : Z) : Z := x mod 256.
Definition u16 (x : Z) : Z := x mod 65536.
Definition size_t (w x : Z) : Z := x mod 2 ^ w.

(** ** Constants of cdp.cpp *)

Definition LOGIC_LEVEL_LOW : Z := 0.
Definition LOGIC_LEVEL_HIGH : Z := 1.
Definition INITIAL_SIGNAL_LEVEL : Z := LOGIC_LEVEL_HIGH.

(** [GET_BIT(data, bit_n)]: [(data >> bit_n) & 0x01]; the three overloads
    differ only in the width of [data]. *)
Definition GET_BIT (data bit_n : Z) : Z :=
  u8 (Z.land (Z.shiftr data (u8 bit_n)) 1).

(** ** Outcome of a call that indexes caller-supplied arrays *)

Inductive outcome (A : Type) : Type :=
  | Returns (a : A)      (* the call returns [a] *)
  | OutOfBounds          (* an array was indexed outside its storage *)
  | OutOfFuel.           (* the loop did not exit within the given fuel *)
Arguments Returns {A} a.
Arguments OutOfBounds {A}.
Arguments OutOfFuel {A}.

#[global] Instance outcome_ret : MRet outcome := λ A a, Returns a.

#[global] Instance outcome_bind : MBind outcome := λ A B k m,
  match m with
  | Returns a => k a
  | OutOfBounds => OutOfBounds
  | OutOfFuel => OutOfFuel
  end.

(** [buf[i]] as an rvalue and [buf[i] = v]. *)
Definition load (buf : list Z) (i : Z) : outcome Z :=
  match buf !! Z.to_nat i with
  | Some b => Returns b
  | None => OutOfBounds
  end.

Definition store (buf : list Z) (i v : Z) : outcome (list Z) :=
  if decide (Z.to_nat i < length buf)%nat
  then Returns (<[Z.to_nat i := v]> buf)
  else OutOfBounds.

(** ** Bit level *)

(** [CDP::encode_bit]: result is (encoded symbol, new signal level). *)
Definition encode_bit (data_bit current_signal_level : Z) : Z * Z :=
  if data_bit =? current_signal_level
  then (2, LOGIC_LEVEL_LOW)
  else (1, LOGIC_LEVEL_HIGH).

(** C's [!x] on an integer. *)
Definition lnot (x : Z) : Z := if x =? 0 then 1 else 0.

(** [CDP::decode_bit]: result is (decoded bit, new signal level). *)
Definition decode_bit (data_bit current_signal_level : Z) : Z * Z :=
  if data_bit =? 2
  then (current_signal_level, LOGIC_LEVEL_LOW)
  else (u8 (lnot current_signal_level), LOGIC_LEVEL_HIGH).

(** ** Byte level *)

(** One iteration of the loop of [CDP::encode_byte]; the loop state is
    ([encoded_byte], [encode_bit_i], signal level). *)
Definition encode_byte_step (data_byte : Z) (st : Z * Z * Z) (i : Z)
  : Z * Z * Z :=
  let '(encoded_byte, encode_bit_i, lvl) := st in
  let data_bit := GET_BIT data_byte i in
  let '(data_bit, lvl) := encode_bit data_bit lvl in
  let encoded_byte :=
    u16 (Z.lor encoded_byte (Z.shiftl (GET_BIT data_bit 1) encode_bit_i)) in
  let encoded_byte :=
    u16 (Z.lor encoded_byte
           (Z.shiftl (GET_BIT data_bit 0) (encode_bit_i + 1))) in
  let encode_bit_i := u8 (encode_bit_i + 2) in
  let encode_bit_i := if encode_bit_i >=? 16 then 0 else encode_bit_i in
  (encoded_byte, encode_bit_i, lvl).

(** [CDP::encode_byte]: [for (i = 0; i < 8; i++)] from
    [encoded_byte = 0], [encode_bit_i = 8]; result is (encoded unit, new
    signal level). *)
Definition encode_byte (data_byte current_signal_level : Z) : Z * Z :=
  let '(encoded_byte, _, lvl) :=
    foldl (encode_byte_step data_byte)
      (0, 8, current_signal_level) [0; 1; 2; 3; 4; 5; 6; 7] in
  (encoded_byte, lvl).

(** One iteration of either loop of [CDP::decode_byte]; the loop state is
    ([decoded_byte], [decode_bit_i], signal level). *)
Definition decode_byte_step (data_byte : Z) (st : Z * Z * Z) (i : Z)
  : Z * Z * Z :=
  let '(decoded_byte, decode_bit_i, lvl) := st in
  let data_bit := GET_BIT data_byte (i + 1) in
  let data_bit := u8 (Z.lor data_bit (Z.shiftl (GET_BIT data_byte i) 1)) in
  let '(data_bit, lvl) := decode_bit data_bit lvl in
  let decoded_byte :=
    u16 (Z.lor decoded_byte (Z.shiftl data_bit decode_bit_i)) in
  let decode_bit_i := u8 (decode_bit_i + 1) in
  (decoded_byte, decode_bit_i, lvl).

(** [CDP::decode_byte]: the loop over the MSB byte ([i = 8, 10, 12, 14])
    followed by the loop over the LSB byte ([i = 0, 2, 4, 6]); the
    [uint16_t] accumulator is returned as [uint8_t]. *)
Definition decode_byte (data_byte current_signal_level : Z) : Z * Z :=
  let st := (0, 0, current_signal_level) in
  let st := foldl (decode_byte_step data_byte) st [8; 10; 12; 14] in
  let '(decoded_byte, _, lvl) :=
    foldl (decode_byte_step data_byte) st [0; 2; 4; 6] in
  (u8 decoded_byte, lvl).

(** ** Buffer level *)

(** The loop of [CDP::encode]:
    [for (size_t i = 0; i < data_in_len; i++)], with loop state
    [i], signal level, [encode_byte_i] and the output array. *)
Fixpoint encode_loop (w : Z) (fuel : nat) (data_in : list Z)
    (data_in_len i lvl encode_byte_i : Z) (data_out : list Z)
  : outcome (list Z) :=
  if i <? data_in_len then
    match fuel with
    | O => OutOfFuel
    | S fuel =>
        b ← load data_in i;
        let '(encoded_byte, lvl) := encode_byte b lvl in
        data_out ← store data_out encode_byte_i
                     (u8 (Z.land (Z.shiftr encoded_byte 8) 255));
        data_out ← store data_out (size_t w (encode_byte_i + 1))
                     (u8 (Z.land encoded_byte 255));
        encode_loop w fuel data_in data_in_len (size_t w (i + 1)) lvl
          (size_t w (encode_byte_i + 2)) data_out
    end
  else Returns data_out.

(** The capacity test of [CDP::encode]: [data_in_len*2 > data_out_len],
    the product taken in [size_t]. *)
Definition encode_guard (w data_in_len data_out_len : Z) : bool :=
  size_t w (data_in_len * 2) >? data_out_len.

(** [CDP::encode]: result is (return value, output array after the call).
    The loop body runs once per value of [i] below [data_in_len], so
    [data_in_len] units of fuel let the loop run to its exit. *)
Definition encode (w : Z) (data_in : list Z) (data_in_len : Z)
    (data_out : list Z) (data_out_len : Z) : outcome (bool * list Z) :=
  if encode_guard w data_in_len data_out_len then Returns (false, data_out)
  else
    data_out ← encode_loop w (Z.to_nat data_in_len) data_in data_in_len
                 0 INITIAL_SIGNAL_LEVEL 0 data_out;
    Returns (true, data_out).

(** The loop of [CDP::decode]:
    [for (size_t i = 0; i < data_in_len; i = i + 2)], with loop state
    [i], signal level, [decode_byte_i] and the output array. *)
Fixpoint decode_loop (w : Z) (fuel : nat) (data_in : list Z)
    (data_in_len i lvl decode_byte_i : Z) (data_out : list Z)
  : outcome (list Z) :=
  if i <? data_in_len then
    match fuel with
    | O => OutOfFuel
    | S fuel =>
        hi ← load data_in i;
        let encoded_byte := u16 (Z.lor 0 (Z.shiftl hi 8)) in
        lo ← load data_in (size_t w (i + 1));
        let encoded_byte := u16 (Z.lor encoded_byte lo) in
        let '(decoded, lvl) := decode_byte encoded_byte lvl in
        data_out ← store data_out decode_byte_i decoded;
        decode_loop w fuel data_in data_in_len (size_t w (i + 2)) lvl
          (size_t w (decode_byte_i + 1)) data_out
    end
  else Returns data_out.

(** The capacity test of [CDP::decode]: [data_out_len*2 < data_in_len],
    the product taken in [size_t]. *)
Definition decode_guard (w data_in_len data_out_len : Z) : bool :=
  size_t w (data_out_len * 2) <? data_in_len.

(** [CDP::decode]: result is (return value, output array after the call).
    [i] advances by two, so [data_in_len] units of fuel are more than the
    loop needs whenever it exits. *)
Definition decode (w : Z) (data_in : list Z) (data_in_len : Z)
    (data_out : list Z) (data_out_len : Z) : outcome (bool * list Z) :=
  if decode_guard w data_in_len data_out_len then Returns (false, data_out)
  else
    data_out ← decode_loop w (Z.to_nat data_in_len) data_in data_in_len
                 0 INITIAL_SIGNAL_LEVEL 0 data_out;
    Returns (true, data_out).

(** ** Functional descriptions used to state the properties *)

(** Big-endian split of a 16-bit unit, as written by [CDP::encode]. *)
Definition be_hi (encoded_byte : Z) : Z :=
  u8 (Z.land (Z.shiftr encoded_byte 8) 255).
Definition be_lo (encoded_byte : Z) : Z :=
  u8 (Z.land encoded_byte 255).

(** The unit rebuilt from two consecutive input bytes by [CDP::decode]. *)
Definition be_join (hi lo : Z) : Z :=
  u16 (Z.lor (u16 (Z.lor 0 (Z.shiftl hi 8))) lo).

(** The 16-bit units of a byte sequence, the level threaded through. *)
Fixpoint encode_units (bs : list Z) (lvl : Z) : list Z :=
  match bs with
  | [] => []
  | b :: bs => let '(e, lvl) := encode_byte b lvl in e :: encode_units bs lvl
  end.

Definition split_units (us : list Z) : list Z :=
  u ← us; [be_hi u; be_lo u].

(** The bytes [CDP::encode] writes for the input [bs]. *)
Definition encode_bytes (bs : list Z) (lvl : Z) : list Z :=
  split_units (encode_units bs lvl).

(** The bytes [CDP::decode] writes for an input of even length. *)
Fixpoint decode_bytes (bs : list Z) (lvl : Z) : list Z :=
  match bs with
  | hi :: lo :: bs =>
      let '(d, lvl) := decode_byte (be_join hi lo) lvl in
      d :: decode_bytes bs lvl
  | _ => []
  end.

(** Signal level once the [k] lowest raw bits of [data_byte] have been
    encoded, starting from [lvl]. *)
Fixpoint level_after (data_byte lvl : Z) (k : nat) : Z :=
  match k with
  | O => lvl
  | S k' =>
      (encode_bit (GET_BIT data_byte (Z.of_nat k'))
         (level_after data_byte lvl k')).2
  end.

(** Symbol emitted for raw bit [k] of [data_byte]. *)
Definition symbol_of (data_byte lvl : Z) (k : nat) : Z :=
  (encode_bit (GET_BIT data_byte (Z.of_nat k))
     (level_after data_byte lvl k)).1.

(** Lower bit position of the pair that holds the symbol of raw bit [k]:
    8, 10, 12, 14, 0, 2, 4, 6. *)
Definition symbol_pos (k : nat) : Z := (8 + 2 * Z.of_nat k) mod 16.

Definition is_byte (b : Z) : Prop := 0 ≤ b < 256.
Definition is_level (c : Z) : Prop :=
  c = LOGIC_LEVEL_LOW ∨ c = LOGIC_LEVEL_HIGH.

Definition all_bytes : list Z := Z.of_nat <$> seq 0 256.

(** Decoding the unit of a byte from the same level gives back the byte
    and the same final level, which is again LOW or HIGH. *)
Definition byte_roundtrip_at (lvl b : Z) : Prop :=
  decode_byte
    (be_join (be_hi (encode_byte b lvl).1) (be_lo (encode_byte b lvl).1))
    lvl = (b, (encode_byte b lvl).2)
  ∧ is_level (encode_byte b lvl).2.

#[local] Instance is_level_dec c : Decision (is_level c).
Proof. unfold is_level. apply _. Defined.

#[local] Instance byte_roundtrip_at_dec lvl b :
  Decision (byte_roundtrip_at lvl b).
Proof. unfold byte_roundtrip_at. apply _. Defined.

(** Where the symbol of raw bit [k] sits in the unit, and how its two
    bits relate to the level reached after that bit. *)
Definition layout_at (lvl : Z) (k : nat) (b : Z) : Prop :=
  let e := (encode_byte b lvl).1 in
  let s := symbol_of b lvl k in
  let p := symbol_pos k in
  Z.testbit e p = Z.testbit s 1
  ∧ Z.testbit e (p + 1) = Z.testbit s 0
  ∧ Z.testbit e (p + 1) = bool_decide (level_after b lvl (S k) = LOGIC_LEVEL_HIGH)
  ∧ Z.testbit e p = negb (Z.testbit e (p + 1)).

#[local] Instance layout_at_dec lvl k b : Decision (layout_at lvl k b).
Proof. unfold layout_at. apply _. Defined.

Definition layout_all (lvl b : Z) : Prop :=
  Forall (λ k, layout_at lvl k b) (seq 0 8).

(** Check, for one pair of input bytes, that [decode_byte] started from
    LOW and from HIGH ends at the same level and yields bytes that differ
    in bit 0 only. *)
Definition resync_ok (hi lo : Z) : bool :=
  let r0 := decode_byte (be_join hi lo) LOGIC_LEVEL_LOW in
  let r1 := decode_byte (be_join hi lo) LOGIC_LEVEL_HIGH in
  (r0.2 =? r1.2) && (r1.1 =? Z.lxor r0.1 1).

(** Signal level after the bytes [bs] have been encoded from [lvl]. *)
Fixpoint level_end (bs : list Z) (lvl : Z) : Z :=
  match bs with
  | [] => lvl
  | b :: bs => level_end bs (encode_byte b lvl).2
  end.

(** Number of 1 bits among the sixteen bits of a unit. *)
Definition popcount16 (u : Z) : Z :=
  foldr (λ i acc, GET_BIT u i + acc) 0
    [0; 1; 2; 3; 4; 5; 6; 7; 8; 9; 10; 11; 12; 13; 14; 15].

(** A unit is valid when each of its eight bit pairs is [01] or [10]. *)
Definition valid_unit (u : Z) : bool :=
  forallb (λ j, negb (Bool.eqb (Z.testbit u (2 * j)) (Z.testbit u (2 * j + 1))))
    [0; 1; 2; 3; 4; 5; 6; 7].

(** Check, for one pair of input bytes forming a valid unit, that
    encoding what [decode_byte] returns gives the unit back, from both
    levels. *)
Definition reencode_ok (hi lo : Z) : bool :=
  let u := be_join hi lo in
  if valid_unit u then
    forallb (λ lvl,
               let d := decode_byte u lvl in
               let e := encode_byte d.1 lvl in
               (e.1 =? u) && (e.2 =? d.2))
      [LOGIC_LEVEL_LOW; LOGIC_LEVEL_HIGH]
  else true.

(** ** The test driver, main.cpp *)

(** One character of [printfb]: [(b & mask ? '1' : '0')]. *)
Definition bit_char (b mask : Z) : ascii :=
  if Z.land b mask =? 0 then "0"%char else "1"%char.

(** [printfb]: the eight characters it sends to [printf], in order. *)
Definition printfb (b : Z) : string :=
  String (bit_char b 0x80) (String (bit_char b 0x40)
  (String (bit_char b 0x20) (String (bit_char b 0x10)
  (String (bit_char b 0x08) (String (bit_char b 0x04)
  (String (bit_char b 0x02) (String (bit_char b 0x01) EmptyString))))))).

(** Value of a text of binary digits, most significant digit first. *)
Fixpoint read_binary (acc : Z) (s : string) : Z :=
  match s with
  | EmptyString => acc
  | String c s => read_binary (2 * acc + (if Ascii.eqb c "1" then 1 else 0)) s
  end.

(** [gen_random_byte]: [(uint8_t)(rand())], for the value [r] that the
    call of [rand] returned. *)
Definition gen_random_byte (r : Z) : Z := u8 r.

(** The comparison loop of [test1] over the indices [idx]: result is
    [any_fail]. *)
Fixpoint compare_loop (idx : list Z) (data decoded_data : list Z)
    (any_fail : bool) : outcome bool :=
  match idx with
  | [] => Returns any_fail
  | i :: idx =>
      d ← load decoded_data i;
      x ← load data i;
      compare_loop idx data decoded_data
        (if bool_decide (d ≠ x) then true else any_fail)
  end.

(** The body of [test1] for a given value of its constant [DATA_SIZE],
    printing left out; [rand k] is the value returned by the [k]-th call
    of [rand].  The three arrays start zeroed; [data] is then filled with
    [DATA_SIZE] random bytes. *)
Definition test1_body (DATA_SIZE w : Z) (rand : nat → Z) : outcome bool :=
  let idx := seq 0 (Z.to_nat DATA_SIZE) in
  let data := (λ k, gen_random_byte (rand k)) <$> idx in
  let encoded_data := replicate (Z.to_nat (DATA_SIZE * 2)) 0 in
  let decoded_data := replicate (Z.to_nat DATA_SIZE) 0 in
  '(ok, encoded_data) ← encode w data DATA_SIZE encoded_data (DATA_SIZE * 2);
  if negb ok then Returns false
  else
    '(ok, decoded_data) ←
      decode w encoded_data (DATA_SIZE * 2) decoded_data DATA_SIZE;
    if negb ok then Returns false
    else
      any_fail ← compare_loop (Z.of_nat <$> idx) data decoded_data false;
      Returns (negb any_fail).

(** [test1]: [const uint16_t DATA_SIZE = 4096]. *)
Definition test1 (w : Z) (rand : nat → Z) : outcome bool :=
  test1_body 4096 w rand.

(** ** Arithmetic and array helpers *)

(** The example in the comment of [CDP::encode] (raw [11100101], encoded
    [01011010 10011001]) is the unit produced from signal level LOW. *)
Example encode_doc_example :
  encode_byte 0xE5 LOGIC_LEVEL_LOW = (0x5A99, LOGIC_LEVEL_HIGH).
Proof. vm_compute. reflexivity. Qed.



Lemma size_t_small w x : 0 ≤ x < 2 ^ w → size_t w x = x.
Proof. intros H. unfold size_t. apply Z.mod_small. exact H. Qed.

Lemma size_t_nonneg w x : 0 ≤ x → 0 ≤ size_t w x.
Proof.
  intros Hx. unfold size_t.
  destruct (Z.eq_dec (2 ^ w) 0) as [E | E].
  - rewrite E, Z.mod_0_r. exact Hx.
  - assert (0 ≤ 2 ^ w) by (apply Z.pow_nonneg; lia).
    apply Z.mod_pos_bound. lia.
Qed.

Lemma size_t_half_wraps w : 1 ≤ w → size_t w (2 ^ (w - 1) * 2) = 0.
Proof.
  intros Hw. unfold size_t.
  replace (2 ^ (w - 1) * 2) with (2 ^ w).
  - apply Z.mod_same. apply Z.pow_nonzero; lia.
  - replace w with (Z.succ (w - 1)) at 1 by lia.
    rewrite Z.pow_succ_r by lia. lia.
Qed.

Lemma all_bytes_complete b : is_byte b → b ∈ all_bytes.
Proof.
  intros [Hlo Hhi]. unfold all_bytes.
  apply list_elem_of_fmap. exists (Z.to_nat b). split; [lia |].
  apply elem_of_seq. lia.
Qed.

(** Exhaustive check over the 256 byte values. *)
Lemma byte_forall (P : Z → Prop) `{!∀ b, Decision (P b)} :
  bool_decide (Forall P all_bytes) = true → ∀ b, is_byte b → P b.
Proof.
  intros Hall b Hb. apply bool_decide_eq_true in Hall.
  rewrite Forall_forall in Hall. apply Hall, all_bytes_complete, Hb.
Qed.

Lemma load_middle (pre rest : list Z) b i :
  i = Z.of_nat (length pre) → load (pre ++ b :: rest) i = Returns b.
Proof.
  intros ->. unfold load. rewrite Nat2Z.id.
  rewrite list_lookup_middle; reflexivity.
Qed.

Lemma load_oob (buf : list Z) i :
  Z.of_nat (length buf) ≤ i → load buf i = OutOfBounds.
Proof.
  intros H. unfold load. rewrite lookup_ge_None_2; [reflexivity | lia].
Qed.

Lemma store_middle (pre rest : list Z) x v i :
  i = Z.of_nat (length pre) →
  store (pre ++ x :: rest) i v = Returns (pre ++ v :: rest).
Proof.
  intros ->. unfold store. rewrite Nat2Z.id.
  rewrite decide_True by (rewrite length_app; simpl; lia).
  rewrite insert_app_r_alt by lia.
  rewrite Nat.sub_diag. reflexivity.
Qed.

Lemma encode_loop_unfold w fuel data_in n i lvl ebi out :
  encode_loop w fuel data_in n i lvl ebi out =
  if i <? n then
    match fuel with
    | O => OutOfFuel
    | S fuel =>
        b ← load data_in i;
        let '(encoded_byte, lvl) := encode_byte b lvl in
        out ← store out ebi (be_hi encoded_byte);
        out ← store out (size_t w (ebi + 1)) (be_lo encoded_byte);
        encode_loop w fuel data_in n (size_t w (i + 1)) lvl
          (size_t w (ebi + 2)) out
    end
  else Returns out.
Proof. destruct fuel; reflexivity. Qed.

Lemma decode_loop_unfold w fuel data_in n i lvl dbi out :
  decode_loop w fuel data_in n i lvl dbi out =
  if i <? n then
    match fuel with
    | O => OutOfFuel
    | S fuel =>
        hi ← load data_in i;
        lo ← load data_in (size_t w (i + 1));
        let '(decoded, lvl) := decode_byte (be_join hi lo) lvl in
        out ← store out dbi decoded;
        decode_loop w fuel data_in n (size_t w (i + 2)) lvl
          (size_t w (dbi + 1)) out
    end
  else Returns out.
Proof. destruct fuel; reflexivity. Qed.

(** ** Byte-level facts, by exhaustive evaluation *)

Lemma decode_encode_byte b lvl :
  is_byte b → is_level lvl → byte_roundtrip_at lvl b.
Proof.
  intros Hb [-> | ->].
  - revert b Hb. apply (byte_forall (byte_roundtrip_at LOGIC_LEVEL_LOW)).
    vm_compute. reflexivity.
  - revert b Hb. apply (byte_forall (byte_roundtrip_at LOGIC_LEVEL_HIGH)).
    vm_compute. reflexivity.
Qed.

Lemma encode_byte_layout_all b lvl :
  is_byte b → is_level lvl → layout_all lvl b.
Proof.
  intros Hb [-> | ->].
  - revert b Hb. apply (byte_forall (layout_all LOGIC_LEVEL_LOW)).
    vm_compute. reflexivity.
  - revert b Hb. apply (byte_forall (layout_all LOGIC_LEVEL_HIGH)).
    vm_compute. reflexivity.
Qed.

Lemma encode_byte_u16 b lvl :
  is_byte b → is_level lvl → 0 ≤ (encode_byte b lvl).1 < 65536.
Proof.
  intros Hb [-> | ->].
  - revert b Hb.
    apply (byte_forall (λ b, 0 ≤ (encode_byte b LOGIC_LEVEL_LOW).1 < 65536)).
    vm_compute. reflexivity.
  - revert b Hb.
    apply (byte_forall (λ b, 0 ≤ (encode_byte b LOGIC_LEVEL_HIGH).1 < 65536)).
    vm_compute. reflexivity.
Qed.

(** ** The buffer loops compute [encode_bytes] and [decode_bytes] *)

#[local] Opaque encode_byte decode_byte.
#[local] Arguments be_hi : simpl never.
#[local] Arguments be_lo : simpl never.
#[local] Arguments be_join : simpl never.
#[local] Arguments size_t : simpl never.

Lemma length_encode_units bs lvl : length (encode_units bs lvl) = length bs.
Proof.
  revert lvl. induction bs as [| b bs IH]; intros lvl; simpl; [reflexivity |].
  destruct (encode_byte b lvl) as [e l]. simpl. rewrite IH. reflexivity.
Qed.

Lemma length_split_units us : length (split_units us) = (2 * length us)%nat.
Proof.
  unfold split_units. induction us as [| u us IH]; [reflexivity |].
  rewrite bind_cons, length_app, IH. simpl. lia.
Qed.

Lemma length_encode_bytes bs lvl :
  length (encode_bytes bs lvl) = (2 * length bs)%nat.
Proof.
  unfold encode_bytes. rewrite length_split_units, length_encode_units.
  reflexivity.
Qed.

Lemma encode_bytes_cons b bs lvl :
  encode_bytes (b :: bs) lvl =
  be_hi (encode_byte b lvl).1 :: be_lo (encode_byte b lvl).1
    :: encode_bytes bs (encode_byte b lvl).2.
Proof.
  unfold encode_bytes, split_units. simpl.
  destruct (encode_byte b lvl) as [e l]. reflexivity.
Qed.

(** Loop invariant of [CDP::encode]: with [pre] consumed and its
    [2 * length pre] bytes written, the loop writes the encoding of [rest]
    over the next [2 * length rest] bytes and touches nothing else. *)
Lemma encode_loop_spec w (rest : list Z) :
  ∀ (pre post opre omid opost : list Z) lvl fuel n i,
    i = Z.of_nat (length pre) →
    n = i + Z.of_nat (length rest) →
    2 * n < 2 ^ w →
    (length rest ≤ fuel)%nat →
    length opre = (2 * length pre)%nat →
    length omid = (2 * length rest)%nat →
    encode_loop w fuel (pre ++ rest ++ post) n i lvl (2 * i)
      (opre ++ omid ++ opost)
    = Returns (opre ++ encode_bytes rest lvl ++ opost).
Proof.
  induction rest as [| b rest IH];
    intros pre post opre omid opost lvl fuel n i Hi Hn Hw Hfuel Hopre Homid;
    rewrite encode_loop_unfold.
  - simpl in Hn, Homid. apply nil_length_inv in Homid. subst omid.
    rewrite (proj2 (Z.ltb_ge i n)) by lia. reflexivity.
  - simpl in Hn, Homid, Hfuel.
    rewrite (proj2 (Z.ltb_lt i n)) by lia.
    destruct fuel as [| fuel]; [lia |].
    destruct omid as [| x [| y omid]]; simpl in Homid; try lia.
    simpl. rewrite (load_middle pre (rest ++ post) b i Hi). simpl.
    rewrite encode_bytes_cons.
    destruct (encode_byte b lvl) as [e l]. simpl.
    rewrite (store_middle opre _ x) by lia. simpl.
    rewrite (size_t_small w (2 * i + 1)) by lia.
    change (opre ++ be_hi e :: y :: omid ++ opost)
      with (opre ++ [be_hi e] ++ y :: omid ++ opost).
    rewrite (assoc_L (++) opre).
    rewrite (store_middle (opre ++ [be_hi e]) _ y)
      by (rewrite length_app; simpl; lia).
    simpl. rewrite !size_t_small by lia.
    rewrite <- (assoc_L (++) opre). simpl.
    specialize (IH (pre ++ [b]) post (opre ++ [be_hi e; be_lo e]) omid opost
                  l fuel n (i + 1)).
    rewrite <- !(assoc_L (++)) in IH. simpl in IH.
    replace (2 * i + 2) with (2 * (i + 1)) by lia.
    apply IH; rewrite ?length_app; simpl; lia.
Qed.

Lemma decode_bytes_cons hi lo bs lvl :
  decode_bytes (hi :: lo :: bs) lvl =
  (decode_byte (be_join hi lo) lvl).1
    :: decode_bytes bs (decode_byte (be_join hi lo) lvl).2.
Proof.
  cbn [decode_bytes]. destruct (decode_byte (be_join hi lo) lvl).
  reflexivity.
Qed.

Lemma length_decode_bytes (omid : list Z) :
  ∀ bs lvl, length bs = (2 * length omid)%nat →
    length (decode_bytes bs lvl) = length omid.
Proof.
  induction omid as [| x omid IH]; intros bs lvl Hlen.
  - destruct bs; [reflexivity | simpl in Hlen; lia].
  - destruct bs as [| hi [| lo bs]]; simpl in Hlen; try lia.
    rewrite decode_bytes_cons. simpl. rewrite IH by lia. reflexivity.
Qed.

(** Loop invariant of [CDP::decode] on whole pairs: with [pre] consumed,
    the loop overwrites [omid] with the decoding of [rest], one byte per
    pair, and touches nothing else. *)
Lemma decode_loop_spec w (omid : list Z) :
  ∀ (rest pre post opre opost : list Z) lvl fuel n i,
    i = Z.of_nat (length pre) →
    n = i + Z.of_nat (length rest) →
    n < 2 ^ w →
    (length omid ≤ fuel)%nat →
    length pre = (2 * length opre)%nat →
    length rest = (2 * length omid)%nat →
    decode_loop w fuel (pre ++ rest ++ post) n i lvl
      (Z.of_nat (length opre)) (opre ++ omid ++ opost)
    = Returns (opre ++ decode_bytes rest lvl ++ opost).
Proof.
  induction omid as [| x omid IH];
    intros rest pre post opre opost lvl fuel n i Hi Hn Hw Hfuel Hpre Hrest;
    rewrite decode_loop_unfold.
  - simpl in Hrest. apply nil_length_inv in Hrest. subst rest.
    simpl in Hn. rewrite (proj2 (Z.ltb_ge i n)) by lia. reflexivity.
  - simpl in Hrest, Hfuel.
    destruct rest as [| hi [| lo rest]]; simpl in Hrest; try lia.
    simpl in Hn.
    rewrite (proj2 (Z.ltb_lt i n)) by lia.
    destruct fuel as [| fuel]; [lia |].
    rewrite decode_bytes_cons.
    cbn [app]. rewrite (load_middle pre _ hi i Hi). simpl.
    rewrite (size_t_small w (i + 1)) by lia.
    change (pre ++ hi :: lo :: rest ++ post)
      with (pre ++ [hi] ++ lo :: rest ++ post).
    rewrite (assoc_L (++) pre).
    rewrite (load_middle (pre ++ [hi]) _ lo (i + 1))
      by (rewrite length_app; simpl; lia).
    simpl.
    destruct (decode_byte (be_join hi lo) lvl) as [d l]. simpl.
    rewrite (store_middle opre _ x) by reflexivity. simpl.
    rewrite !size_t_small by lia.
    specialize (IH rest (pre ++ [hi; lo]) post (opre ++ [d]) opost
                  l fuel n (i + 2)).
    rewrite <- !(assoc_L (++)) in IH. simpl in IH.
    rewrite <- (assoc_L (++) pre). simpl.
    replace (Z.of_nat (length opre) + 1)
      with (Z.of_nat (length (opre ++ [d])))
      by (rewrite length_app; simpl; lia).
    apply IH; rewrite ?length_app; simpl; lia.
Qed.

Lemma encode_guard_exact w n cap :
  0 ≤ n → 2 * n < 2 ^ w → encode_guard w n cap = bool_decide (cap < 2 * n).
Proof.
  intros Hn Hw. unfold encode_guard. rewrite size_t_small by lia.
  rewrite Z.gtb_ltb. case_bool_decide; [apply Z.ltb_lt | apply Z.ltb_ge]; lia.
Qed.

Lemma decode_guard_exact w n cap :
  0 ≤ cap → 2 * cap < 2 ^ w → decode_guard w n cap = bool_decide (2 * cap < n).
Proof.
  intros Hc Hw. unfold decode_guard. rewrite size_t_small by lia.
  case_bool_decide; [apply Z.ltb_lt | apply Z.ltb_ge]; lia.
Qed.

(** What a call of [CDP::encode] with a sufficient, truthful capacity
    leaves in the output array. *)
Lemma encode_spec w (data_in data_out : list Z) n cap :
  0 ≤ n ≤ Z.of_nat (length data_in) →
  2 * n ≤ cap < 2 ^ w →
  cap ≤ Z.of_nat (length data_out) →
  encode w data_in n data_out cap =
  Returns (true,
           encode_bytes (take (Z.to_nat n) data_in) INITIAL_SIGNAL_LEVEL
             ++ drop (Z.to_nat (2 * n)) data_out).
Proof.
  intros Hn Hcap Hout. unfold encode.
  rewrite encode_guard_exact by lia.
  rewrite bool_decide_eq_false_2 by lia.
  pose proof (encode_loop_spec w (take (Z.to_nat n) data_in) []
                (drop (Z.to_nat n) data_in) []
                (take (Z.to_nat (2 * n)) data_out)
                (drop (Z.to_nat (2 * n)) data_out)
                INITIAL_SIGNAL_LEVEL (Z.to_nat n) n 0) as Hloop.
  cbn [app length] in Hloop.
  rewrite !take_drop in Hloop. change (2 * 0) with 0 in Hloop.
  rewrite Hloop; [reflexivity | | | | | | ];
    rewrite ?length_take; try lia.
Qed.

(** What a call of [CDP::decode] on [m] whole pairs leaves in the output
    array, once the capacity test lets it through. *)
Lemma decode_spec w (data_in data_out : list Z) m cap :
  0 ≤ m →
  2 * m ≤ Z.of_nat (length data_in) →
  2 * m < 2 ^ w →
  decode_guard w (2 * m) cap = false →
  m ≤ Z.of_nat (length data_out) →
  decode w data_in (2 * m) data_out cap =
  Returns (true,
           decode_bytes (take (Z.to_nat (2 * m)) data_in) INITIAL_SIGNAL_LEVEL
             ++ drop (Z.to_nat m) data_out).
Proof.
  intros Hm Hin Hw Hguard Hout. unfold decode. rewrite Hguard.
  pose proof (decode_loop_spec w (take (Z.to_nat m) data_out)
                (take (Z.to_nat (2 * m)) data_in) []
                (drop (Z.to_nat (2 * m)) data_in) []
                (drop (Z.to_nat m) data_out)
                INITIAL_SIGNAL_LEVEL (Z.to_nat (2 * m)) (2 * m) 0) as Hloop.
  cbn [app length] in Hloop.
  rewrite !take_drop in Hloop. change (Z.of_nat 0) with 0 in Hloop.
  rewrite Hloop; [reflexivity | | | | | | ];
    rewrite ?length_take; try lia.
Qed.

(** Decoding the bytes written for [bs] gives [bs] back. *)
Lemma decode_bytes_encode_bytes bs :
  ∀ lvl, Forall is_byte bs → is_level lvl →
    decode_bytes (encode_bytes bs lvl) lvl = bs.
Proof.
  induction bs as [| b bs IH]; intros lvl Hbs Hlvl; [reflexivity |].
  apply Forall_cons in Hbs as [Hb Hbs].
  destruct (decode_encode_byte b lvl Hb Hlvl) as [Hrt Hl].
  rewrite encode_bytes_cons, decode_bytes_cons, Hrt. cbn [fst snd].
  rewrite IH by assumption. reflexivity.
Qed.

(** Lookup in the bytes of a list of units. *)
Lemma split_units_lookup us :
  ∀ (i : nat) u, us !! i = Some u →
    split_units us !! (2 * i)%nat = Some (be_hi u)
    ∧ split_units us !! (2 * i + 1)%nat = Some (be_lo u).
Proof.
  unfold split_units.
  induction us as [| v us IH]; intros i u Hi; [discriminate |].
  rewrite bind_cons. destruct i as [| i].
  - injection Hi as ->. split; reflexivity.
  - cbn [lookup list_lookup] in Hi. destruct (IH i u Hi) as [H1 H2].
    replace (2 * S i)%nat with (S (S (2 * i))) by lia.
    replace (S (S (2 * i)) + 1)%nat with (S (S (2 * i + 1))) by lia.
    split; [exact H1 | exact H2].
Qed.

Lemma be_hi_bits e j : 0 ≤ j < 8 → Z.testbit (be_hi e) j = Z.testbit e (8 + j).
Proof.
  intros Hj. unfold be_hi, u8. change 256 with (2 ^ 8).
  rewrite Z.mod_pow2_bits_low by lia.
  rewrite Z.land_spec, Z.shiftr_spec by lia.
  change 255 with (Z.ones 8). rewrite Z.ones_spec_low by lia.
  rewrite andb_true_r. f_equal. lia.
Qed.

Lemma be_lo_bits e j : 0 ≤ j < 8 → Z.testbit (be_lo e) j = Z.testbit e j.
Proof.
  intros Hj. unfold be_lo, u8. change 256 with (2 ^ 8).
  rewrite Z.mod_pow2_bits_low by lia.
  rewrite Z.land_spec. change 255 with (Z.ones 8).
  rewrite Z.ones_spec_low by lia. apply andb_true_r.
Qed.

(** * Properties of the transcoder *)

(** C1 (round-trip identity).  For every byte sequence [b] of length [n],
    [encode] into an array of declared capacity at least [2n] succeeds,
    and [decode] of the first [2n] bytes of what it wrote, into an array
    of declared capacity at least [n], succeeds and leaves exactly [b] in
    the first [n] output bytes.  Both calls start from signal level HIGH.
    The declared capacities are [size_t] values: [cap_enc] fits [w] bits,
    and so does the double of [cap_dec] that [decode] computes (as it does
    for [cap_dec = n]).  [n] is arbitrary: 0, 1 and large lengths are
    instances. *)
Theorem roundtrip_identity w (b out_enc out_dec : list Z) cap_enc cap_dec :
  Forall is_byte b →
  2 * Z.of_nat (length b) ≤ cap_enc < 2 ^ w →
  cap_enc ≤ Z.of_nat (length out_enc) →
  Z.of_nat (length b) ≤ cap_dec →
  2 * cap_dec < 2 ^ w →
  cap_dec ≤ Z.of_nat (length out_dec) →
  INITIAL_SIGNAL_LEVEL = LOGIC_LEVEL_HIGH ∧
  ∃ enc,
    encode w b (Z.of_nat (length b)) out_enc cap_enc = Returns (true, enc) ∧
    length enc = length out_enc ∧
    decode w enc (2 * Z.of_nat (length b)) out_dec cap_dec =
      Returns (true, b ++ drop (length b) out_dec).
Proof.
  intros Hb Hce Hoe Hcd Hcdw Hod. split; [reflexivity |].
  set (n := Z.of_nat (length b)) in *.
  set (enc := encode_bytes b INITIAL_SIGNAL_LEVEL
                ++ drop (Z.to_nat (2 * n)) out_enc).
  assert (Henc : encode w b n out_enc cap_enc = Returns (true, enc)).
  { rewrite encode_spec by lia. subst enc n.
    rewrite Nat2Z.id, take_ge by lia. reflexivity. }
  assert (Hlen : length enc = length out_enc).
  { subst enc. rewrite length_app, length_encode_bytes, length_drop. lia. }
  exists enc. split; [exact Henc |]. split; [exact Hlen |].
  rewrite decode_spec; try lia.
  - assert (Htake : take (Z.to_nat (2 * n)) enc
                    = encode_bytes b INITIAL_SIGNAL_LEVEL).
    { subst enc. apply take_app_length'.
      rewrite length_encode_bytes. lia. }
    rewrite Htake, decode_bytes_encode_bytes.
    + subst n. rewrite Nat2Z.id. reflexivity.
    + exact Hb.
    + right. reflexivity.
  - rewrite decode_guard_exact by lia. apply bool_decide_eq_false_2. lia.
Qed.

Lemma roundtrip_identity_witness :
  ∃ enc,
    encode 64 [0x74; 0x00; 0xFF] 3 [0; 0; 0; 0; 0; 0; 9] 6
      = Returns (true, enc) ∧
    length enc = 7%nat ∧
    decode 64 enc 6 [8; 8; 8; 8] 3 = Returns (true, [0x74; 0x00; 0xFF; 8]).
Proof.
  refine (proj2 (roundtrip_identity 64 [0x74; 0x00; 0xFF]
                   [0; 0; 0; 0; 0; 0; 9] [8; 8; 8; 8] 6 3 _ _ _ _ _ _)).
  - repeat constructor; unfold is_byte; lia.
  - simpl; lia.
  - simpl; lia.
  - simpl; lia.
  - lia.
  - simpl; lia.
Defined.

(** C2 (bit-rule table).  From HIGH, data bit 1 gives symbol [10] and
    level LOW, data bit 0 gives [01] and HIGH; from LOW, data bit 0 gives
    [10] and LOW, data bit 1 gives [01] and HIGH.  [decode_bit] maps each
    of the four (symbol, level) pairs back to the data bit and to the same
    new level. *)
Theorem bit_rule_table :
  encode_bit 1 LOGIC_LEVEL_HIGH = (2, LOGIC_LEVEL_LOW) ∧
  encode_bit 0 LOGIC_LEVEL_HIGH = (1, LOGIC_LEVEL_HIGH) ∧
  encode_bit 0 LOGIC_LEVEL_LOW = (2, LOGIC_LEVEL_LOW) ∧
  encode_bit 1 LOGIC_LEVEL_LOW = (1, LOGIC_LEVEL_HIGH) ∧
  decode_bit 2 LOGIC_LEVEL_HIGH = (1, LOGIC_LEVEL_LOW) ∧
  decode_bit 1 LOGIC_LEVEL_HIGH = (0, LOGIC_LEVEL_HIGH) ∧
  decode_bit 2 LOGIC_LEVEL_LOW = (0, LOGIC_LEVEL_LOW) ∧
  decode_bit 1 LOGIC_LEVEL_LOW = (1, LOGIC_LEVEL_HIGH).
Proof. repeat split. Qed.

(** C3 (byte-packing layout).  For every raw byte and starting level,
    [encode_byte] handles the raw bits from bit 0 to bit 7; the symbol of
    raw bit [k] occupies positions [(8 + 2k) mod 16] and the next one
    (8,9 for bit 0, 10,11 for bit 1, ... 6,7 for bit 7).  The lower
    position holds the symbol's first (transition) bit, the higher one the
    bit that equals the new signal level, and the two are complementary.
    [encode] then writes each unit big-endian: the byte at the even index
    holds bits 8..15 and the following byte holds bits 0..7. *)
Theorem byte_packing_layout :
  (∀ b lvl (k : nat), is_byte b → is_level lvl → (k < 8)%nat →
     let e := (encode_byte b lvl).1 in
     let s := symbol_of b lvl k in
     let p := (8 + 2 * Z.of_nat k) mod 16 in
     Z.testbit e p = Z.testbit s 1 ∧
     Z.testbit e (p + 1) = Z.testbit s 0 ∧
     Z.testbit e (p + 1)
       = bool_decide (level_after b lvl (S k) = LOGIC_LEVEL_HIGH) ∧
     Z.testbit e p = negb (Z.testbit e (p + 1))) ∧
  (∀ w (data_in data_out : list Z) n cap,
     0 ≤ n ≤ Z.of_nat (length data_in) →
     2 * n ≤ cap < 2 ^ w →
     cap ≤ Z.of_nat (length data_out) →
     ∃ out,
       encode w data_in n data_out cap = Returns (true, out) ∧
       ∀ (i : nat) u,
         encode_units (take (Z.to_nat n) data_in) INITIAL_SIGNAL_LEVEL !! i
           = Some u →
         ∃ h l,
           out !! (2 * i)%nat = Some h ∧ out !! (2 * i + 1)%nat = Some l ∧
           ∀ j, 0 ≤ j < 8 →
             Z.testbit h j = Z.testbit u (8 + j) ∧
             Z.testbit l j = Z.testbit u j).
Proof.
  split.
  - intros b lvl k Hb Hlvl Hk.
    pose proof (encode_byte_layout_all b lvl Hb Hlvl) as Hall.
    unfold layout_all in Hall. rewrite Forall_forall in Hall.
    apply (Hall k). apply elem_of_seq. lia.
  - intros w data_in data_out n cap Hn Hcap Hout.
    eexists. split; [apply encode_spec; assumption |].
    intros i u Hu.
    destruct (split_units_lookup _ i u Hu) as [Hh Hl].
    exists (be_hi u), (be_lo u). unfold encode_bytes.
    split; [| split].
    + apply lookup_app_l_Some. exact Hh.
    + apply lookup_app_l_Some. exact Hl.
    + intros j Hj. split; [apply be_hi_bits | apply be_lo_bits]; exact Hj.
Qed.

Lemma byte_packing_layout_witness :
  (let e := (encode_byte 0x74 1).1 in
   Z.testbit e 12 = Z.testbit (symbol_of 0x74 1 2) 1 ∧
   Z.testbit e 13 = Z.testbit (symbol_of 0x74 1 2) 0) ∧
  ∃ out, encode 64 [0x74] 1 [0; 0] 2 = Returns (true, out) ∧
         out !! 0%nat = Some 0x5A.
Proof.
  split.
  - destruct (proj1 byte_packing_layout 0x74 1 2%nat) as (H1 & H2 & _).
    + unfold is_byte; lia.
    + right; reflexivity.
    + lia.
    + split; [exact H1 | exact H2].
  - destruct (proj2 byte_packing_layout 64 [0x74] [0; 0] 1 2)
      as (out & Henc & _).
    + simpl; lia.
    + lia.
    + simpl; lia.
    + exists out. split; [exact Henc |].
      assert (E : Returns (true, out) = Returns (true, [0x5A; 0xA6])).
      { rewrite <- Henc. vm_compute. reflexivity. }
      injection E as ->. reflexivity.
Defined.

(** C4 (encode capacity test, at the wrap-around).  With a 16-bit
    [size_t], [data_in_len = 32768] and [data_out_len = 0]: the capacity is
    smaller than twice the input length, yet [encode] does not return
    false; the product wraps to 0, the test passes and the first store
    falls outside the output array. *)
Theorem encode_accepts_insufficient_capacity (data_in : list Z) :
  0 < 2 * 32768 ∧
  encode_guard 16 32768 0 = false ∧
  encode 16 data_in 32768 [] 0 = OutOfBounds.
Proof.
  split; [lia |]. split; [vm_compute; reflexivity |].
  unfold encode.
  replace (encode_guard 16 32768 0) with false by (vm_compute; reflexivity).
  rewrite encode_loop_unfold.
  destruct (Z.to_nat 32768) as [| fuel] eqn:Hfuel; [lia |].
  change (0 <? 32768) with true. cbv iota.
  unfold load. destruct (data_in !! Z.to_nat 0) as [b |]; [| reflexivity].
  cbn [mbind outcome_bind]. destruct (encode_byte b INITIAL_SIGNAL_LEVEL).
  reflexivity.
Qed.

(** C5 (decode capacity test, at the wrap-around).  With a 16-bit
    [size_t], [data_in_len = 2] and [data_out_len = 32768]: twice the
    capacity is at least the input length, yet [decode] returns false and
    leaves the output untouched; the product wraps to 0. *)
Theorem decode_rejects_sufficient_capacity (data_in data_out : list Z) :
  2 ≤ 2 * 32768 ∧
  decode_guard 16 2 32768 = true ∧
  decode 16 data_in 2 data_out 32768 = Returns (false, data_out).
Proof.
  split; [lia |]. split; [vm_compute; reflexivity |].
  unfold decode.
  replace (decode_guard 16 2 32768) with true by (vm_compute; reflexivity).
  reflexivity.
Qed.

(** C6 (odd-length input).  With [data_in_len = 3] the loop runs for
    [i = 0] and [i = 2]; the second iteration loads [data_in[3]].  On an
    input array of exactly three bytes that load is out of bounds; when a
    fourth byte follows in storage it is paired with the trailing byte and
    a second output byte is written, which differs with that fourth byte.
    Decoding only the first two bytes writes one output byte. *)
Theorem decode_odd_length_reads_past_input :
  decode 64 [0x5A; 0xA6; 0x99] 3 [0xEE; 0xEE] 2 = OutOfBounds ∧
  decode 64 [0x5A; 0xA6; 0x99; 0x66] 3 [0xEE; 0xEE] 2
    = Returns (true, [0x74; 0xEF]) ∧
  decode 64 [0x5A; 0xA6; 0x99; 0x00] 3 [0xEE; 0xEE] 2
    = Returns (true, [0x74; 0x0F]) ∧
  decode 64 [0x5A; 0xA6] 2 [0xEE; 0xEE] 2 = Returns (true, [0x74; 0xEE]).
Proof. repeat split; vm_compute; reflexivity. Qed.

(** C7 (invalid symbols).  For every current level [c], [decode_bit] on
    the symbols [00] and [11] gives the same raw bit and the same new
    level as on [01]: the raw bit is [!c] and the new level is HIGH.  The
    result carries no error indication. *)
Theorem invalid_symbols_decode_as_01 c :
  decode_bit 0 c = decode_bit 1 c ∧
  decode_bit 3 c = decode_bit 1 c ∧
  decode_bit 1 c = (lnot c, LOGIC_LEVEL_HIGH).
Proof.
  repeat split. unfold decode_bit, lnot. simpl.
  destruct (c =? 0); reflexivity.
Qed.

(** C8 (cross-byte level continuity).  Encoding the buffer [[b0; b1]]
    writes the same four bytes as [encode_byte] on [b0] from HIGH followed
    by [encode_byte] on [b1] from the level the first call ended with,
    each unit split big-endian. *)
Theorem cross_byte_level_continuity w b0 b1 (data_out : list Z) cap :
  4 ≤ cap < 2 ^ w →
  cap ≤ Z.of_nat (length data_out) →
  let r0 := encode_byte b0 LOGIC_LEVEL_HIGH in
  let r1 := encode_byte b1 r0.2 in
  encode w [b0; b1] 2 data_out cap =
  Returns (true,
           [be_hi r0.1; be_lo r0.1; be_hi r1.1; be_lo r1.1]
             ++ drop 4 data_out).
Proof.
  intros Hcap Hout r0 r1.
  rewrite encode_spec by (simpl; lia).
  change (take (Z.to_nat 2) [b0; b1]) with [b0; b1].
  rewrite !encode_bytes_cons. reflexivity.
Qed.

Lemma cross_byte_level_continuity_witness :
  encode 64 [0x12; 0x34] 2 [0; 0; 0; 0; 0] 4
  = Returns (true, [0x56; 0xAA; 0x5A; 0x56; 0]).
Proof.
  refine (eq_trans
            (cross_byte_level_continuity 64 0x12 0x34 [0; 0; 0; 0; 0] 4 _ _)
            _).
  - lia.
  - simpl; lia.
  - vm_compute. reflexivity.
Defined.

(** C9 (zero-length buffers).  With [data_in_len = 0], for every output
    array and every declared capacity, [encode] and [decode] return true
    and leave the output array as it was. *)
Theorem zero_length_buffers w (data_in data_out : list Z) cap :
  0 ≤ cap →
  encode w data_in 0 data_out cap = Returns (true, data_out) ∧
  decode w data_in 0 data_out cap = Returns (true, data_out).
Proof.
  intros Hcap. split.
  - unfold encode, encode_guard, size_t. change (0 * 2 mod 2 ^ w) with 0.
    rewrite Z.gtb_ltb, (proj2 (Z.ltb_ge cap 0)) by lia. reflexivity.
  - unfold decode, decode_guard.
    pose proof (size_t_nonneg w (cap * 2)).
    rewrite (proj2 (Z.ltb_ge (size_t w (cap * 2)) 0)) by lia. reflexivity.
Qed.

Lemma zero_length_buffers_witness :
  encode 64 [] 0 [7; 7] 0 = Returns (true, [7; 7]) ∧
  decode 64 [] 0 [7; 7] 0 = Returns (true, [7; 7]).
Proof. apply (zero_length_buffers 64 [] [7; 7] 0). lia. Defined.

(** C10 (wrap-around of the capacity tests).  Both tests take their
    product modulo [2^w].  So for every width [w] there are an input length
    of at least [2^(w-1)] and a smaller-than-needed capacity that [encode]
    does not reject, and a capacity of at least [2^(w-1)] that [decode]
    rejects although its double is at least the input length. *)
Theorem capacity_guards_wrap w :
  1 ≤ w →
  (∀ n cap, encode_guard w n cap = ((n * 2) mod 2 ^ w >? cap)) ∧
  (∀ n cap, decode_guard w n cap = ((cap * 2) mod 2 ^ w <? n)) ∧
  (∃ n cap,
     2 ^ (w - 1) ≤ n < 2 ^ w ∧ 0 ≤ cap < 2 ^ w ∧ cap < 2 * n ∧
     encode_guard w n cap = false ∧
     ∀ data_in data_out out,
       encode w data_in n data_out cap ≠ Returns (false, out)) ∧
  (∃ n cap,
     0 ≤ n < 2 ^ w ∧ 2 ^ (w - 1) ≤ cap < 2 ^ w ∧ n ≤ 2 * cap ∧
     decode_guard w n cap = true ∧
     ∀ data_in data_out,
       decode w data_in n data_out cap = Returns (false, data_out)).
Proof.
  intros Hw.
  assert (Hpos : 0 < 2 ^ (w - 1)) by (apply Z.pow_pos_nonneg; lia).
  assert (Hdbl : 2 ^ w = 2 * 2 ^ (w - 1)).
  { replace w with (Z.succ (w - 1)) at 1 by lia.
    rewrite Z.pow_succ_r by lia. reflexivity. }
  split; [reflexivity |]. split; [reflexivity |]. split.
  - exists (2 ^ (w - 1)), 0.
    assert (Hg : encode_guard w (2 ^ (w - 1)) 0 = false).
    { unfold encode_guard. rewrite size_t_half_wraps by lia. reflexivity. }
    repeat split; try lia; [exact Hg |].
    intros data_in data_out out. unfold encode. rewrite Hg.
    destruct (encode_loop _ _ _ _ _ _ _ _); simpl; discriminate.
  - exists 1, (2 ^ (w - 1)).
    assert (Hg : decode_guard w 1 (2 ^ (w - 1)) = true).
    { unfold decode_guard. rewrite size_t_half_wraps by lia. reflexivity. }
    repeat split; try lia; [exact Hg |].
    intros data_in data_out. unfold decode. rewrite Hg. reflexivity.
Qed.

Lemma capacity_guards_wrap_witness :
  encode_guard 16 32768 0 = ((32768 * 2) mod 2 ^ 16 >? 0).
Proof. apply (proj1 (capacity_guards_wrap 16 ltac:(lia))). Defined.

(** * Further properties of cdp.cpp *)



(** The IEEE 802.5 rule as [encode_bit] realises it: the first half of the
    emitted symbol differs from the previous signal level (a transition at
    the start of the bit cell) exactly when the data bit is 0; the second
    half is always the complement of the first (a mid-cell transition) and
    is the level the signal is left at. *)
Theorem encode_bit_transitions d c :
  d = 0 ∨ d = 1 → is_level c →
  let s := (encode_bit d c).1 in
  let l := (encode_bit d c).2 in
  (Z.b2z (Z.testbit s 1) ≠ c ↔ d = 0) ∧
  Z.testbit s 0 = negb (Z.testbit s 1) ∧
  Z.b2z (Z.testbit s 0) = l.
Proof.
  intros [-> | ->] [-> | ->]; vm_compute; repeat split; try tauto;
    try discriminate; intros H; try discriminate; try reflexivity;
    exfalso; apply H; reflexivity.
Qed.

Lemma encode_bit_transitions_witness :
  (Z.b2z (Z.testbit (encode_bit 0 1).1 1) ≠ 1 ↔ 0 = 0) ∧
  Z.testbit (encode_bit 0 1).1 0 = negb (Z.testbit (encode_bit 0 1).1 1) ∧
  Z.b2z (Z.testbit (encode_bit 0 1).1 0) = (encode_bit 0 1).2.
Proof.
  apply (encode_bit_transitions 0 1); [left | right]; reflexivity.
Defined.

(** While [2 * data_in_len] fits [size_t], [encode] returns false exactly
    when the declared capacity is below twice the input length, whatever
    the arrays are, and a rejected call leaves the output array as it
    was. *)
Theorem encode_rejects_iff w (data_in data_out : list Z) n cap :
  0 ≤ n → 2 * n < 2 ^ w →
  ((∃ out, encode w data_in n data_out cap = Returns (false, out))
     ↔ cap < 2 * n) ∧
  (∀ out, encode w data_in n data_out cap = Returns (false, out) →
          out = data_out).
Proof.
  intros Hn Hw. unfold encode. rewrite encode_guard_exact by lia.
  case_bool_decide as Hcap.
  - split; [split; [intros _; exact Hcap | intros _; eauto] |].
    intros out [= <-]. reflexivity.
  - destruct (encode_loop _ _ _ _ _ _ _ _); cbn [mbind outcome_bind];
      (split; [split; [intros [out Hout]; discriminate | lia] |]);
      intros out Hout; discriminate.
Qed.

Lemma encode_rejects_iff_witness :
  (∃ out, encode 64 [0x74] 1 [9] 1 = Returns (false, out)) ↔ 1 < 2 * 1.
Proof. apply (encode_rejects_iff 64 [0x74] [9] 1 1); lia. Defined.

(** While [2 * data_out_len] fits [size_t], [decode] returns false exactly
    when twice the declared capacity is below the input length, whatever
    the arrays are, and a rejected call leaves the output array as it
    was. *)
Theorem decode_rejects_iff w (data_in data_out : list Z) n cap :
  0 ≤ cap → 2 * cap < 2 ^ w →
  ((∃ out, decode w data_in n data_out cap = Returns (false, out))
     ↔ 2 * cap < n) ∧
  (∀ out, decode w data_in n data_out cap = Returns (false, out) →
          out = data_out).
Proof.
  intros Hc Hw. unfold decode. rewrite decode_guard_exact by lia.
  case_bool_decide as Hcap.
  - split; [split; [intros _; exact Hcap | intros _; eauto] |].
    intros out [= <-]. reflexivity.
  - destruct (decode_loop _ _ _ _ _ _ _ _); cbn [mbind outcome_bind];
      (split; [split; [intros [out Hout]; discriminate | lia] |]);
      intros out Hout; discriminate.
Qed.

Lemma decode_rejects_iff_witness :
  (∃ out, decode 64 [1; 2; 3; 4] 4 [9] 1 = Returns (false, out))
    ↔ 2 * 1 < 4.
Proof. apply (decode_rejects_iff 64 [1; 2; 3; 4] [9] 4 1); lia. Defined.

(** A successful [encode] writes the first [2 * data_in_len] output bytes
    and nothing else: the array keeps its length and every byte from index
    [2 * data_in_len] on; input bytes beyond [data_in_len] are not
    looked at. *)
Theorem encode_writes_prefix_only w (data_in data_out : list Z) n cap :
  0 ≤ n ≤ Z.of_nat (length data_in) →
  2 * n ≤ cap < 2 ^ w →
  cap ≤ Z.of_nat (length data_out) →
  ∃ out,
    encode w data_in n data_out cap = Returns (true, out) ∧
    length out = length data_out ∧
    take (Z.to_nat (2 * n)) out
      = encode_bytes (take (Z.to_nat n) data_in) INITIAL_SIGNAL_LEVEL ∧
    drop (Z.to_nat (2 * n)) out = drop (Z.to_nat (2 * n)) data_out.
Proof.
  intros Hn Hcap Hout. eexists. split; [apply encode_spec; assumption |].
  assert (Hlen : length (encode_bytes (take (Z.to_nat n) data_in)
                           INITIAL_SIGNAL_LEVEL) = Z.to_nat (2 * n)).
  { rewrite length_encode_bytes, length_take. lia. }
  split; [| split].
  - rewrite length_app, Hlen, length_drop. lia.
  - apply take_app_length'. congruence.
  - apply drop_app_length'. congruence.
Qed.

Lemma encode_writes_prefix_only_witness :
  ∃ out,
    encode 64 [0x74; 0x55] 1 [0; 0; 9] 2 = Returns (true, out) ∧
    length out = 3%nat ∧
    take 2 out = encode_bytes [0x74] INITIAL_SIGNAL_LEVEL ∧
    drop 2 out = [9].
Proof.
  apply (encode_writes_prefix_only 64 [0x74; 0x55] [0; 0; 9] 1 2);
    simpl; lia.
Defined.

(** [decode] on [m] whole pairs returns true for every content of the
    input, valid symbols or not; it writes the first [m] output bytes and
    nothing else. *)
Theorem decode_writes_prefix_only w (data_in data_out : list Z) m cap :
  0 ≤ m →
  2 * m ≤ Z.of_nat (length data_in) →
  m ≤ cap →
  2 * cap < 2 ^ w →
  cap ≤ Z.of_nat (length data_out) →
  ∃ out,
    decode w data_in (2 * m) data_out cap = Returns (true, out) ∧
    length out = length data_out ∧
    take (Z.to_nat m) out
      = decode_bytes (take (Z.to_nat (2 * m)) data_in) INITIAL_SIGNAL_LEVEL ∧
    drop (Z.to_nat m) out = drop (Z.to_nat m) data_out.
Proof.
  intros Hm Hin Hcap Hw Hout. eexists. split.
  - apply decode_spec; try lia.
    rewrite decode_guard_exact by lia. apply bool_decide_eq_false_2. lia.
  - assert (Hlen : length (decode_bytes (take (Z.to_nat (2 * m)) data_in)
                             INITIAL_SIGNAL_LEVEL) = Z.to_nat m).
    { rewrite (length_decode_bytes (replicate (Z.to_nat m) 0));
        rewrite ?length_replicate, ?length_take; lia. }
    split; [| split].
    + rewrite length_app, Hlen, length_drop. lia.
    + apply take_app_length'. congruence.
    + apply drop_app_length'. congruence.
Qed.

Lemma decode_writes_prefix_only_witness :
  ∃ out,
    decode 64 [0x00; 0xFF; 7] 2 [0; 9] 1 = Returns (true, out) ∧
    length out = 2%nat ∧
    take 1 out = decode_bytes [0x00; 0xFF] INITIAL_SIGNAL_LEVEL ∧
    drop 1 out = [9].
Proof.
  apply (decode_writes_prefix_only 64 [0x00; 0xFF; 7] [0; 9] 1 1);
    simpl; lia.
Defined.

(** [encode_byte] never emits an invalid symbol: in every unit, each of
    the eight bit pairs (0,1), (2,3), ... (14,15) holds two complementary
    bits, and the unit has no bit above position 15. *)
Theorem encode_byte_valid_symbols b lvl (j : nat) :
  is_byte b → is_level lvl → (j < 8)%nat →
  let e := (encode_byte b lvl).1 in
  Z.testbit e (2 * Z.of_nat j) = negb (Z.testbit e (2 * Z.of_nat j + 1)) ∧
  0 ≤ e < 65536.
Proof.
  intros Hb Hlvl Hj. split; [| apply encode_byte_u16; assumption].
  pose proof (encode_byte_layout_all b lvl Hb Hlvl) as Hall.
  unfold layout_all in Hall. rewrite Forall_forall in Hall.
  assert (Hk : (((j + 4) mod 8 < 8)%nat
                ∧ symbol_pos ((j + 4) mod 8) = 2 * Z.of_nat j)).
  { do 8 (destruct j as [| j]; [split; [cbn; lia | reflexivity] |]). lia. }
  destruct Hk as [Hk Hpos].
  destruct (Hall ((j + 4) mod 8)%nat) as (_ & _ & _ & Hneg).
  { apply elem_of_seq. lia. }
  rewrite Hpos in Hneg. exact Hneg.
Qed.

Lemma encode_byte_valid_symbols_witness :
  Z.testbit (encode_byte 0x74 1).1 (2 * Z.of_nat 3)
  = negb (Z.testbit (encode_byte 0x74 1).1 (2 * Z.of_nat 3 + 1)).
Proof.
  refine (proj1 (encode_byte_valid_symbols 0x74 1 3 _ _ _)).
  - unfold is_byte; lia.
  - right; reflexivity.
  - lia.
Defined.

Lemma be_hi_byte e : is_byte (be_hi e).
Proof. unfold is_byte, be_hi, u8. apply Z.mod_pos_bound. lia. Qed.

Lemma be_lo_byte e : is_byte (be_lo e).
Proof. unfold is_byte, be_lo, u8. apply Z.mod_pos_bound. lia. Qed.

Lemma resync_ok_all :
  forallb (λ hi, forallb (resync_ok hi) all_bytes) all_bytes = true.
Proof. vm_compute. reflexivity. Qed.

Lemma resync_ok_true hi lo :
  is_byte hi → is_byte lo → resync_ok hi lo = true.
Proof.
  intros Hhi Hlo. pose proof resync_ok_all as Hall.
  rewrite forallb_forall in Hall.
  specialize (Hall hi (proj1 (list_elem_of_In _ _) (all_bytes_complete _ Hhi))).
  rewrite forallb_forall in Hall.
  exact (Hall lo (proj1 (list_elem_of_In _ _) (all_bytes_complete _ Hlo))).
Qed.

(** [decode_byte] resynchronises: for every pair of input bytes, the level
    it ends with does not depend on the level it started from, and the
    two decoded bytes differ in bit 0 only. *)
Theorem decode_byte_resync hi lo :
  is_byte hi → is_byte lo →
  (decode_byte (be_join hi lo) LOGIC_LEVEL_LOW).2
    = (decode_byte (be_join hi lo) LOGIC_LEVEL_HIGH).2 ∧
  (decode_byte (be_join hi lo) LOGIC_LEVEL_HIGH).1
    = Z.lxor (decode_byte (be_join hi lo) LOGIC_LEVEL_LOW).1 1.
Proof.
  intros Hhi Hlo. pose proof (resync_ok_true hi lo Hhi Hlo) as Hok.
  unfold resync_ok in Hok. apply andb_true_iff in Hok as [Hlevel Hbyte].
  split.
  - apply Z.eqb_eq. exact Hlevel.
  - apply Z.eqb_eq. exact Hbyte.
Qed.

Lemma decode_byte_resync_witness :
  (decode_byte (be_join 0x5A 0xA6) LOGIC_LEVEL_LOW).2
    = (decode_byte (be_join 0x5A 0xA6) LOGIC_LEVEL_HIGH).2 ∧
  (decode_byte (be_join 0x5A 0xA6) LOGIC_LEVEL_HIGH).1
    = Z.lxor (decode_byte (be_join 0x5A 0xA6) LOGIC_LEVEL_LOW).1 1.
Proof. apply (decode_byte_resync 0x5A 0xA6); unfold is_byte; lia. Defined.

(** ** Streams, odd lengths and termination *)

Lemma encode_bytes_app a : ∀ b lvl,
  encode_bytes (a ++ b) lvl
  = encode_bytes a lvl ++ encode_bytes b (level_end a lvl).
Proof.
  induction a as [| x a IH]; intros b lvl; [reflexivity |].
  cbn [app level_end]. rewrite !encode_bytes_cons, IH. reflexivity.
Qed.

Lemma level_end_is_level a : ∀ lvl,
  Forall is_byte a → is_level lvl → is_level (level_end a lvl).
Proof.
  induction a as [| x a IH]; intros lvl Ha Hlvl; [exact Hlvl |].
  apply Forall_cons in Ha as [Hx Ha]. cbn [level_end].
  apply IH; [exact Ha |]. apply (decode_encode_byte x lvl Hx Hlvl).
Qed.

(** [encode] is stable under extension of its input: the bytes written
    for [a] are the same whether [a] is encoded alone or followed by [b],
    and the bytes written for [b] are its encoding from the level [a]
    ended with. *)
Theorem encode_prefix_stable w (a b data_out : list Z) cap :
  2 * Z.of_nat (length a + length b) ≤ cap < 2 ^ w →
  cap ≤ Z.of_nat (length data_out) →
  ∃ o_ab o_a,
    encode w (a ++ b) (Z.of_nat (length a + length b)) data_out cap
      = Returns (true, o_ab) ∧
    encode w a (Z.of_nat (length a)) data_out cap = Returns (true, o_a) ∧
    take (2 * length a) o_ab = take (2 * length a) o_a ∧
    drop (2 * length a) (take (2 * (length a + length b)) o_ab)
      = encode_bytes b (level_end a INITIAL_SIGNAL_LEVEL).
Proof.
  intros Hcap Hout. eexists. eexists.
  split; [apply encode_spec; rewrite ?length_app; lia |].
  split; [apply encode_spec; lia |].
  rewrite !Nat2Z.id.
  rewrite (take_ge (a ++ b)) by (rewrite length_app; lia).
  rewrite (take_ge a) by lia.
  rewrite encode_bytes_app, <- !(assoc_L (++)).
  pose proof (length_encode_bytes a INITIAL_SIGNAL_LEVEL) as Hla.
  pose proof (length_encode_bytes b (level_end a INITIAL_SIGNAL_LEVEL)) as Hlb.
  split.
  - rewrite !take_app_length' by congruence. reflexivity.
  - rewrite (assoc_L (++)), take_app_length'
      by (rewrite length_app; lia).
    rewrite drop_app_length' by congruence. reflexivity.
Qed.

Lemma encode_prefix_stable_witness :
  ∃ o_ab o_a,
    encode 64 [0x12; 0x34] 2 [0; 0; 0; 0; 0] 4 = Returns (true, o_ab) ∧
    encode 64 [0x12] 1 [0; 0; 0; 0; 0] 4 = Returns (true, o_a) ∧
    take 2 o_ab = take 2 o_a ∧
    drop 2 (take 4 o_ab) = encode_bytes [0x34] (level_end [0x12] 1).
Proof.
  apply (encode_prefix_stable 64 [0x12] [0x34] [0; 0; 0; 0; 0] 4);
    simpl; lia.
Defined.

(** Decoding may start in the middle of an encoded stream.  [decode]
    applied to what [encode] produced for [a ++ x :: b], from the unit of
    [x] on, gives back [x :: b] except possibly for bit 0 of [x]: the
    level assumed at the start is HIGH, whatever level [a] ended with. *)
Theorem decode_resynchronises w (a : list Z) x (b data_out : list Z) cap :
  Forall is_byte a → is_byte x → Forall is_byte b →
  1 + Z.of_nat (length b) ≤ cap →
  2 * cap < 2 ^ w →
  cap ≤ Z.of_nat (length data_out) →
  ∃ x', (x' = x ∨ x' = Z.lxor x 1) ∧
    decode w
      (drop (2 * length a)
         (encode_bytes (a ++ x :: b) INITIAL_SIGNAL_LEVEL))
      (2 * (1 + Z.of_nat (length b))) data_out cap
    = Returns (true, x' :: b ++ drop (S (length b)) data_out).
Proof.
  intros Ha Hx Hb Hcap Hw Hout.
  pose proof (level_end_is_level a INITIAL_SIGNAL_LEVEL Ha
                (or_intror eq_refl)) as Hl.
  set (l := level_end a INITIAL_SIGNAL_LEVEL) in *.
  assert (Hdrop : drop (2 * length a)
                    (encode_bytes (a ++ x :: b) INITIAL_SIGNAL_LEVEL)
                  = encode_bytes (x :: b) l).
  { rewrite encode_bytes_app. apply drop_app_length'.
    rewrite length_encode_bytes. reflexivity. }
  rewrite Hdrop.
  assert (Hlen : length (encode_bytes (x :: b) l)
                 = Z.to_nat (2 * (1 + Z.of_nat (length b)))).
  { rewrite length_encode_bytes. cbn [length]. lia. }
  assert (Hdec : ∃ x', (x' = x ∨ x' = Z.lxor x 1) ∧
            decode_bytes (encode_bytes (x :: b) l) INITIAL_SIGNAL_LEVEL
            = x' :: b).
  { destruct Hl as [Hl | Hl].
    - exists (Z.lxor x 1). split; [right; reflexivity |].
      destruct (decode_encode_byte x LOGIC_LEVEL_LOW Hx (or_introl eq_refl))
        as [Hrt Hl2].
      rewrite Hl, encode_bytes_cons, decode_bytes_cons.
      pose proof (resync_ok_true
                    (be_hi (encode_byte x LOGIC_LEVEL_LOW).1)
                    (be_lo (encode_byte x LOGIC_LEVEL_LOW).1)
                    (be_hi_byte _) (be_lo_byte _)) as Hok.
      unfold resync_ok in Hok. apply andb_true_iff in Hok as [Hsame Hflip].
      apply Z.eqb_eq in Hsame, Hflip.
      change INITIAL_SIGNAL_LEVEL with LOGIC_LEVEL_HIGH.
      rewrite Hflip, <- Hsame, Hrt. cbn [fst snd].
      rewrite decode_bytes_encode_bytes by assumption. reflexivity.
    - exists x. split; [left; reflexivity |].
      rewrite Hl. apply (decode_bytes_encode_bytes (x :: b)).
      + constructor; assumption.
      + right; reflexivity. }
  destruct Hdec as (x' & Hx' & Hdec). exists x'. split; [exact Hx' |].
  rewrite decode_spec; try lia.
  - rewrite take_ge by lia. rewrite Hdec.
    replace (Z.to_nat (1 + Z.of_nat (length b))) with (S (length b)) by lia.
    reflexivity.
  - rewrite decode_guard_exact by lia. apply bool_decide_eq_false_2. lia.
Qed.

Lemma decode_resynchronises_witness :
  ∃ x', (x' = 0x34 ∨ x' = Z.lxor 0x34 1) ∧
    decode 64
      (drop 2 (encode_bytes ([0x12] ++ [0x34; 0x56]) INITIAL_SIGNAL_LEVEL))
      4 [0; 0; 9] 2
    = Returns (true, x' :: [0x56] ++ [9]).
Proof.
  apply (decode_resynchronises 64 [0x12] 0x34 [0x56] [0; 0; 9] 2);
    repeat constructor; unfold is_byte; simpl; lia.
Defined.

(** ** Odd input lengths *)

(** With an odd number of bytes left and nothing stored behind them, the
    loop of [CDP::decode] ends in an access outside an array: at the
    latest, the load of [data_in[i+1]] in the iteration that reaches the
    last byte. *)
Lemma decode_loop_odd w (pairs : nat) :
  ∀ (rest pre : list Z) lvl fuel n i dbi (out : list Z),
    i = Z.of_nat (length pre) →
    length rest = (2 * pairs + 1)%nat →
    n = i + Z.of_nat (length rest) →
    n < 2 ^ w →
    (pairs < fuel)%nat →
    decode_loop w fuel (pre ++ rest) n i lvl dbi out = OutOfBounds.
Proof.
  induction pairs as [| pairs IH];
    intros rest pre lvl fuel n i dbi out Hi Hrest Hn Hw Hfuel;
    rewrite decode_loop_unfold;
    rewrite (proj2 (Z.ltb_lt i n)) by lia;
    (destruct fuel as [| fuel]; [lia |]).
  - destruct rest as [| z [| ? ?]]; cbn [length] in Hrest, Hn; try lia.
    rewrite (load_middle pre [] z i Hi). cbn [mbind outcome_bind].
    rewrite (size_t_small w (i + 1)) by lia.
    rewrite load_oob by (rewrite length_app; cbn [length]; lia).
    reflexivity.
  - destruct rest as [| hi [| lo rest]]; cbn [length] in Hrest, Hn; try lia.
    rewrite (load_middle pre _ hi i Hi). cbn [mbind outcome_bind].
    rewrite (size_t_small w (i + 1)) by lia.
    change (pre ++ hi :: lo :: rest) with (pre ++ [hi] ++ lo :: rest).
    rewrite (assoc_L (++) pre).
    rewrite (load_middle (pre ++ [hi]) _ lo (i + 1))
      by (rewrite length_app; cbn [length]; lia).
    cbn [mbind outcome_bind].
    destruct (decode_byte (be_join hi lo) lvl) as [d l].
    unfold store at 1.
    destruct (decide (Z.to_nat dbi < length out)%nat);
      cbn [mbind outcome_bind]; [| reflexivity].
    rewrite (size_t_small w (i + 2)) by lia.
    rewrite <- (assoc_L (++) pre). cbn [app].
    change (pre ++ hi :: lo :: rest) with (pre ++ [hi; lo] ++ rest).
    rewrite (assoc_L (++) pre).
    apply IH; rewrite ?length_app; cbn [length]; lia.
Qed.

(** For every odd [data_in_len] that passes the capacity test, on an input
    array of exactly [data_in_len] bytes, [decode] indexes an array out of
    bounds: the trailing byte is not dropped, the loop pairs it with
    [data_in[data_in_len]]. *)
Theorem decode_odd_length_out_of_bounds w (data_in data_out : list Z) m cap :
  0 ≤ m →
  Z.of_nat (length data_in) = 2 * m + 1 →
  2 * m + 1 < 2 ^ w →
  decode_guard w (2 * m + 1) cap = false →
  decode w data_in (2 * m + 1) data_out cap = OutOfBounds.
Proof.
  intros Hm Hlen Hw Hguard. unfold decode. rewrite Hguard.
  pose proof (decode_loop_odd w (Z.to_nat m) data_in [] INITIAL_SIGNAL_LEVEL
                (Z.to_nat (2 * m + 1)) (2 * m + 1) 0 0 data_out) as Hloop.
  cbn [app] in Hloop. rewrite Hloop; [reflexivity | reflexivity | | | | ]; lia.
Qed.

Lemma decode_odd_length_out_of_bounds_witness :
  decode 64 [0x5A; 0xA6; 0x99] (2 * 1 + 1) [0xEE; 0xEE] 2 = OutOfBounds.
Proof.
  apply (decode_odd_length_out_of_bounds 64 [0x5A; 0xA6; 0x99]
           [0xEE; 0xEE] 1 2).
  - lia.
  - reflexivity.
  - lia.
  - vm_compute. reflexivity.
Defined.

(** ** Termination of the buffer loops *)

Lemma load_exits (buf : list Z) i : load buf i ≠ OutOfFuel.
Proof. unfold load. destruct (buf !! Z.to_nat i); discriminate. Qed.

Lemma store_exits (buf : list Z) i v : store buf i v ≠ OutOfFuel.
Proof. unfold store. case_decide; discriminate. Qed.

(** Case analysis on an array access of the goal. *)
Ltac case_access :=
  match goal with
  | |- context [load ?buf ?i] =>
      let E := fresh "E" in
      destruct (load buf i) eqn:E;
      [| | exfalso; exact (load_exits _ _ E)]
  | |- context [store ?buf ?i ?v] =>
      let E := fresh "E" in
      destruct (store buf i v) eqn:E;
      [| | exfalso; exact (store_exits _ _ _ E)]
  end; cbn [mbind outcome_bind]; try discriminate.

Lemma encode_loop_exits w n : n < 2 ^ w →
  ∀ fuel (data_in : list Z) i lvl ebi (out : list Z),
    0 ≤ i → (Z.to_nat (n - i) ≤ fuel)%nat →
    encode_loop w fuel data_in n i lvl ebi out ≠ OutOfFuel.
Proof.
  intros Hw. induction fuel as [| fuel IH];
    intros data_in i lvl ebi out Hi Hfuel; rewrite encode_loop_unfold;
    destruct (Z.ltb_spec i n) as [Hlt | Hge]; try discriminate; [lia |].
  repeat case_access. destruct (encode_byte _ lvl) as [e l].
  repeat case_access.
  rewrite (size_t_small w (i + 1)) by lia. apply IH; lia.
Qed.

Lemma decode_loop_exits w n : n + 1 < 2 ^ w →
  ∀ fuel (data_in : list Z) i lvl dbi (out : list Z),
    0 ≤ i → (Z.to_nat (n - i) ≤ fuel)%nat →
    decode_loop w fuel data_in n i lvl dbi out ≠ OutOfFuel.
Proof.
  intros Hw. induction fuel as [| fuel IH];
    intros data_in i lvl dbi out Hi Hfuel; rewrite decode_loop_unfold;
    destruct (Z.ltb_spec i n) as [Hlt | Hge]; try discriminate; [lia |].
  repeat case_access. destruct (decode_byte _ lvl) as [d l].
  repeat case_access.
  rewrite (size_t_small w (i + 2)) by lia. apply IH; lia.
Qed.

(** The loops of [encode] and [decode] exit for every input: whatever the
    arrays, lengths and capacities, a call either returns or indexes an
    array out of bounds; it never loops without end.  For [decode] this
    holds while [data_in_len] is below the largest [size_t] value: there
    [i = i + 2] would wrap past [data_in_len]. *)
Theorem buffer_loops_exit w (data_in data_out : list Z) n cap :
  0 ≤ n → n + 1 < 2 ^ w →
  encode w data_in n data_out cap ≠ OutOfFuel ∧
  decode w data_in n data_out cap ≠ OutOfFuel.
Proof.
  intros Hn Hw. split.
  - unfold encode. destruct (encode_guard w n cap); [discriminate |].
    pose proof (encode_loop_exits w n ltac:(lia) (Z.to_nat n) data_in 0
                  INITIAL_SIGNAL_LEVEL 0 data_out ltac:(lia) ltac:(lia)).
    destruct (encode_loop _ _ _ _ _ _ _ _); cbn [mbind outcome_bind];
      [discriminate | discriminate | congruence].
  - unfold decode. destruct (decode_guard w n cap); [discriminate |].
    pose proof (decode_loop_exits w n Hw (Z.to_nat n) data_in 0
                  INITIAL_SIGNAL_LEVEL 0 data_out ltac:(lia) ltac:(lia)).
    destruct (decode_loop _ _ _ _ _ _ _ _); cbn [mbind outcome_bind];
      [discriminate | discriminate | congruence].
Qed.

Lemma buffer_loops_exit_witness :
  encode 64 [1; 2] 5 [0] 10 ≠ OutOfFuel ∧
  decode 64 [1; 2] 5 [0] 10 ≠ OutOfFuel.
Proof. apply (buffer_loops_exit 64 [1; 2] [0] 5 10); lia. Defined.

(** ** Units *)

(** The level [encode_byte] hands to the next byte is the level reached
    after its eighth bit, and it is the last half-bit it emitted: bit 7 of
    the unit. *)
Theorem encode_byte_final_level b lvl :
  is_byte b → is_level lvl →
  (encode_byte b lvl).2 = level_after b lvl 8 ∧
  (encode_byte b lvl).2 = Z.b2z (Z.testbit (encode_byte b lvl).1 7).
Proof.
  intros Hb [-> | ->]; revert b Hb.
  - apply (byte_forall (λ b,
      (encode_byte b LOGIC_LEVEL_LOW).2 = level_after b LOGIC_LEVEL_LOW 8 ∧
      (encode_byte b LOGIC_LEVEL_LOW).2
        = Z.b2z (Z.testbit (encode_byte b LOGIC_LEVEL_LOW).1 7))).
    vm_compute. reflexivity.
  - apply (byte_forall (λ b,
      (encode_byte b LOGIC_LEVEL_HIGH).2 = level_after b LOGIC_LEVEL_HIGH 8 ∧
      (encode_byte b LOGIC_LEVEL_HIGH).2
        = Z.b2z (Z.testbit (encode_byte b LOGIC_LEVEL_HIGH).1 7))).
    vm_compute. reflexivity.
Qed.

Lemma encode_byte_final_level_witness :
  (encode_byte 0x74 1).2 = level_after 0x74 1 8 ∧
  (encode_byte 0x74 1).2 = Z.b2z (Z.testbit (encode_byte 0x74 1).1 7).
Proof.
  apply (encode_byte_final_level 0x74 1);
    [unfold is_byte; lia | right; reflexivity].
Defined.

(** Every unit [encode_byte] produces is balanced: exactly eight of its
    sixteen bits are 1. *)
Theorem encoded_unit_balanced b lvl :
  is_byte b → is_level lvl → popcount16 (encode_byte b lvl).1 = 8.
Proof.
  intros Hb [-> | ->]; revert b Hb.
  - apply (byte_forall
             (λ b, popcount16 (encode_byte b LOGIC_LEVEL_LOW).1 = 8)).
    vm_compute. reflexivity.
  - apply (byte_forall
             (λ b, popcount16 (encode_byte b LOGIC_LEVEL_HIGH).1 = 8)).
    vm_compute. reflexivity.
Qed.

Lemma encoded_unit_balanced_witness : popcount16 (encode_byte 0x74 1).1 = 8.
Proof.
  apply (encoded_unit_balanced 0x74 1);
    [unfold is_byte; lia | right; reflexivity].
Defined.

Lemma reencode_ok_all :
  forallb (λ hi, forallb (reencode_ok hi) all_bytes) all_bytes = true.
Proof. vm_compute. reflexivity. Qed.

(** Decoding then encoding is the identity on valid units: for every pair
    of input bytes whose eight symbols are all [01] or [10], and either
    starting level, [encode_byte] applied to the byte [decode_byte]
    returns gives the same unit and ends at the same level. *)
Theorem encode_decode_valid_unit hi lo lvl :
  is_byte hi → is_byte lo → is_level lvl →
  valid_unit (be_join hi lo) = true →
  encode_byte (decode_byte (be_join hi lo) lvl).1 lvl
  = (be_join hi lo, (decode_byte (be_join hi lo) lvl).2).
Proof.
  intros Hhi Hlo Hlvl Hvalid. pose proof reencode_ok_all as Hall.
  rewrite forallb_forall in Hall.
  specialize (Hall hi (proj1 (list_elem_of_In _ _) (all_bytes_complete _ Hhi))).
  rewrite forallb_forall in Hall.
  specialize (Hall lo (proj1 (list_elem_of_In _ _) (all_bytes_complete _ Hlo))).
  unfold reencode_ok in Hall. rewrite Hvalid in Hall.
  rewrite forallb_forall in Hall. specialize (Hall lvl).
  cbv zeta in Hall.
  destruct (encode_byte (decode_byte (be_join hi lo) lvl).1 lvl) as [e l].
  cbn [fst snd] in Hall.
  assert (Hin : In lvl [LOGIC_LEVEL_LOW; LOGIC_LEVEL_HIGH]).
  { destruct Hlvl as [-> | ->]; [left | right; left]; reflexivity. }
  apply Hall, andb_true_iff in Hin as [He Hl].
  apply Z.eqb_eq in He, Hl. congruence.
Qed.

Lemma encode_decode_valid_unit_witness :
  encode_byte (decode_byte (be_join 0x5A 0xA6) 1).1 1
  = (be_join 0x5A 0xA6, (decode_byte (be_join 0x5A 0xA6) 1).2).
Proof.
  apply (encode_decode_valid_unit 0x5A 0xA6 1).
  - unfold is_byte; lia.
  - unfold is_byte; lia.
  - right; reflexivity.
  - vm_compute. reflexivity.
Defined.

(** * Properties of the test driver, main.cpp *)

(** [printfb] prints a byte as eight binary digits, most significant
    first: the text has eight characters and reads back as the byte. *)
Theorem printfb_reads_back b :
  is_byte b →
  String.length (printfb b) = 8%nat ∧ read_binary 0 (printfb b) = b.
Proof.
  intros Hb. split; [reflexivity |]. revert b Hb.
  apply (byte_forall (λ b, read_binary 0 (printfb b) = b)).
  vm_compute. reflexivity.
Qed.

Lemma printfb_reads_back_witness :
  String.length (printfb 0x74) = 8%nat ∧ read_binary 0 (printfb 0x74) = 0x74.
Proof. apply (printfb_reads_back 0x74). unfold is_byte. lia. Defined.

Lemma compare_loop_same (data : list Z) (idx : list Z) :
  Forall (λ i, 0 ≤ i < Z.of_nat (length data)) idx →
  compare_loop idx data data false = Returns false.
Proof.
  induction idx as [| i idx IH]; intros Hidx; [reflexivity |].
  apply Forall_cons in Hidx as [Hi Hidx]. cbn [compare_loop].
  destruct (lookup_lt_is_Some_2 data (Z.to_nat i) ltac:(lia)) as [x Hx].
  unfold load. rewrite Hx. cbn [mbind outcome_bind].
  rewrite bool_decide_eq_false_2 by congruence. apply IH, Hidx.
Qed.

Lemma test1_body_passes DATA_SIZE w (rand : nat → Z) :
  0 ≤ DATA_SIZE → 2 * DATA_SIZE < 2 ^ w →
  test1_body DATA_SIZE w rand = Returns true.
Proof.
  intros HD Hw. unfold test1_body.
  set (idx := seq 0 (Z.to_nat DATA_SIZE)).
  set (data := (λ k, gen_random_byte (rand k)) <$> idx).
  assert (Hlen : Z.of_nat (length data) = DATA_SIZE).
  { subst data idx. rewrite length_fmap, length_seq. lia. }
  assert (Hbytes : Forall is_byte data).
  { subst data. apply Forall_fmap, Forall_forall. intros k _.
    unfold compose, gen_random_byte, u8, is_byte.
    apply Z.mod_pos_bound. lia. }
  rewrite encode_spec by (rewrite ?length_replicate; lia).
  cbn [mbind outcome_bind negb].
  rewrite (take_ge data) by lia.
  rewrite (drop_ge (replicate _ _)) by (rewrite length_replicate; lia).
  rewrite app_nil_r.
  pose proof (length_encode_bytes data INITIAL_SIGNAL_LEVEL) as Henc.
  replace (DATA_SIZE * 2) with (2 * DATA_SIZE) by lia.
  rewrite decode_spec; rewrite ?length_replicate; try lia.
  - cbn [mbind outcome_bind negb].
    rewrite take_ge by lia.
    rewrite decode_bytes_encode_bytes by (assumption || (right; reflexivity)).
    rewrite (drop_ge (replicate _ _)) by (rewrite length_replicate; lia).
    rewrite app_nil_r, compare_loop_same; [reflexivity |].
    apply Forall_fmap, Forall_forall. intros k Hk. unfold compose.
    subst idx. apply elem_of_seq in Hk. lia.
  - rewrite decode_guard_exact by lia. apply bool_decide_eq_false_2. lia.
Qed.

(** [test1] reports success for every sequence of values that [rand] may
    return, on every target whose [size_t] can hold [2 * DATA_SIZE]. *)
Theorem test1_passes w (rand : nat → Z) :
  8192 < 2 ^ w → test1 w rand = Returns true.
Proof.
  intros Hw. unfold test1. apply test1_body_passes; [lia | exact Hw].
Qed.

Lemma test1_passes_witness : test1 64 (λ _, 0) = Returns true.
Proof. apply (test1_passes 64 (λ _, 0)). reflexivity. Defined.
